(** * remember.py: per-agent key-value memory backed by SQLite

    A shallow embedding of
    [server/default-skills/remember-fact/scripts/remember.py] and the
    properties of its four actions ([set], [get], [list], [delete]).

    The script is one function, [main].  It reads [sys.argv], opens a
    connection to the database, runs at most one statement against the table
    [agent_memory], prints one JSON document and closes the connection in a
    [finally] block.  The embedding keeps that shape: [main] is written in a
    small state-and-exception monad whose state is the process's view of the
    world (the committed table, the connection's open transaction, standard
    output and the log of calls made to the storage library). *)

From Stdlib Require Import String Ascii List Bool Arith ZArith NArith Lia.
From Stdlib Require Import Permutation.
Import ListNotations.
Open Scope string_scope.

(** ** Python strings and [json.dumps]

    A Python [str] is modelled as a Rocq [string]; a character is a code point
    below 256. *)

Definition dquote : ascii := Eval cbv in ascii_of_nat 34.
Definition backslash : ascii := Eval cbv in ascii_of_nat 92.
Definition newline : ascii := Eval cbv in ascii_of_nat 10.

Definition chr (c : ascii) : string := String c EmptyString.

Definition hex_digit (n : nat) : ascii :=
  match n with
  | 0 => "0" | 1 => "1" | 2 => "2" | 3 => "3" | 4 => "4" | 5 => "5"
  | 6 => "6" | 7 => "7" | 8 => "8" | 9 => "9" | 10 => "a" | 11 => "b"
  | 12 => "c" | 13 => "d" | 14 => "e" | _ => "f"
  end%char.

(** ['\\u{0:04x}'.format(n)] for [n < 256]. *)
Definition u_escape (n : nat) : string :=
  String backslash
    (String "u" (String "0" (String "0"
      (String (hex_digit (n / 16)) (String (hex_digit (n mod 16)) ""))))).

(** The replacement [json.encoder] makes for one character with
    [ensure_ascii=True]: the characters from space to [~] other than the
    quote and the backslash stand for themselves, seven characters have a
    two-character escape, every other one is written [\uXXXX]. *)
Definition escape_char (c : ascii) : string :=
  let n := nat_of_ascii c in
  if Nat.eqb n 34 then String backslash (chr dquote)
  else if Nat.eqb n 92 then String backslash (chr backslash)
  else if Nat.eqb n 8 then String backslash "b"
  else if Nat.eqb n 12 then String backslash "f"
  else if Nat.eqb n 10 then String backslash "n"
  else if Nat.eqb n 13 then String backslash "r"
  else if Nat.eqb n 9 then String backslash "t"
  else if (Nat.leb 32 n && Nat.leb n 126)%bool then chr c
  else u_escape n.

Fixpoint escape (s : string) : string :=
  match s with
  | EmptyString => ""
  | String c s' => escape_char c ++ escape s'
  end.

Definition encode_str (s : string) : string :=
  String dquote (escape s ++ chr dquote).

(** The JSON values the script builds: strings, lists and dicts (a dict keeps
    its keys in insertion order). *)
Unset Elimination Schemes.
Inductive json : Type :=
| JStr (s : string)
| JList (items : list json)
| JDict (fields : list (string * json)).
Set Elimination Schemes.

(** [json.dumps] with its default separators [", "] and [": "]. *)
Fixpoint dumps (j : json) : string :=
  match j with
  | JStr s => encode_str s
  | JList items => "[" ++ String.concat ", " (map dumps items) ++ "]"
  | JDict fields =>
      "{" ++ String.concat ", "
               (map (fun kv => encode_str (fst kv) ++ ": " ++ dumps (snd kv))
                    fields)
          ++ "}"
  end.

Definition is_dict (j : json) : bool :=
  match j with JDict _ => true | _ => false end.

(** The number of newline characters of a text, that is, of lines it ends. *)
Fixpoint count_newlines (s : string) : nat :=
  match s with
  | EmptyString => 0
  | String c s' =>
      (if Ascii.eqb c newline then 1 else 0) + count_newlines s'
  end.

(** ** The table [agent_memory] *)

Definition timestamp : Type := N.

Record row : Type := mkRow {
  agent_id : string;
  key : string;
  value : string;
  updated_at : timestamp
}.

Definition table : Type := list row.

(** [WHERE agent_id = ? AND key = ?] *)
Definition matches (a k : string) (r : row) : bool :=
  (String.eqb (agent_id r) a && String.eqb (key r) k)%bool.

(** [WHERE agent_id = ?] *)
Definition owned_by (a : string) (r : row) : bool :=
  String.eqb (agent_id r) a.

(** The unique constraint on [(agent_id, key)]. *)
Definition unique_keys (t : table) : Prop :=
  NoDup (map (fun r => (agent_id r, key r)) t).

(** Modelled from the spec: the schema of [agent_memory] is created by an
    external initializer and is not part of the script.  What the script's
    statements leave to the schema and to the engine is collected here: the
    default the schema gives [updated_at] when a row is inserted without it
    (a function of the current time), and the order in which the engine
    returns the rows of a [SELECT] that has no [ORDER BY], which is some
    rearrangement of the selected rows. *)
Class Engine : Type := {
  updated_at_default : timestamp -> timestamp;
  row_order : list row -> list row;
  row_order_perm : forall l, Permutation (row_order l) l
}.

(** An engine that stamps new rows with the current time and scans the table
    in insertion order. *)
#[export] Instance rowid_engine : Engine := {|
  updated_at_default := fun now => now;
  row_order := fun l => l;
  row_order_perm := fun l => Permutation_refl l
|}.

(** [DO UPDATE SET value = excluded.value, updated_at = datetime('now')] on
    the row that conflicts with [(a, k)]. *)
Definition refresh (now : timestamp) (a k v : string) (r : row) : row :=
  if matches a k r then mkRow (agent_id r) (key r) v now else r.

(** [INSERT INTO agent_memory (agent_id, key, value) VALUES (?, ?, ?)
     ON CONFLICT(agent_id, key) DO UPDATE
     SET value = excluded.value, updated_at = datetime('now')]:
    a row that conflicts with the new one on [(agent_id, key)] is updated in
    place, and without a conflict the new row is inserted. *)
Definition upsert `{Engine} (now : timestamp) (a k v : string) (t : table)
  : table :=
  if existsb (matches a k) t then map (refresh now a k v) t
  else (t ++ [mkRow a k v (updated_at_default now)])%list.

(** [DELETE FROM agent_memory WHERE agent_id = ? AND key = ?] *)
Definition delete_rows (a k : string) (t : table) : table :=
  filter (fun r => negb (matches a k r)) t.

(** [SELECT ... FROM agent_memory WHERE ...] *)
Definition select `{Engine} (where_ : row -> bool) (t : table) : list row :=
  row_order (filter where_ t).

(** ** The process and the storage library

    [disk] is the committed table, the state every later invocation starts
    from; [txn] is the table as the connection sees it while it has an open
    transaction (the [sqlite3] module opens one before a statement that
    writes; [commit] makes it durable and [close] drops it); [stdout] is what
    has been printed; [calls] logs the calls made to the storage library. *)

Inductive storage_call : Type := Connect | Execute | Commit | Close.

Inductive exn : Type :=
| SystemExit (code : Z)
| IndexError
| OperationalError.

Record world : Type := mkWorld {
  disk : table;
  txn : option table;
  stdout : string;
  calls : list storage_call
}.

Definition view (w : world) : table :=
  match txn w with Some t => t | None => disk w end.

Inductive outcome (A : Type) : Type :=
| Returned (a : A)
| Raised (e : exn).
Arguments Returned {A} a.
Arguments Raised {A} e.

Definition M (A : Type) : Type := world -> world * outcome A.

Definition ret {A} (a : A) : M A := fun w => (w, Returned a).

Definition bind {A B} (m : M A) (k : A -> M B) : M B :=
  fun w => match m w with
           | (w', Returned a) => k a w'
           | (w', Raised e) => (w', Raised e)
           end.

Definition raise {A} (e : exn) : M A := fun w => (w, Raised e).

Notation "x <- c ;; k" := (bind c (fun x => k))
  (at level 61, c at next level, right associativity).
Notation "c ;; k" := (bind c (fun _ => k))
  (at level 61, right associativity).

(** [try: body finally: cleanup].  The cleanup runs however the body ends; an
    exception of the cleanup replaces the body's outcome. *)
Definition try_finally {A} (body : M A) (cleanup : M unit) : M A :=
  fun w => match body w with
           | (w', o) => match cleanup w' with
                        | (w'', Returned _) => (w'', o)
                        | (w'', Raised e) => (w'', Raised e)
                        end
           end.

Definition when (b : bool) (m : M unit) : M unit :=
  if b then m else ret tt.

(** [print(s)] *)
Definition print (s : string) : M unit :=
  fun w => (mkWorld (disk w) (txn w) (stdout w ++ s ++ chr newline) (calls w),
            Returned tt).

(** [sys.exit(code)] *)
Definition sys_exit {A} (code : Z) : M A := raise (SystemExit code).

(** [l[i]] *)
Definition item (l : list string) (i : nat) : M string :=
  match nth_error l i with
  | Some s => ret s
  | None => raise IndexError
  end.

(** ** The script *)

Section Script.

Context `{Engine}.

(** Which calls to the storage library fail in this invocation (an
    unavailable or corrupt file, a missing table, a lock that cannot be
    taken), and the time [datetime('now')] reads. *)
Variable fails : storage_call -> bool.
Variable now : timestamp.

(** A call to the storage library: it is logged, and either raises or has
    its effect. *)
Definition storage {A} (c : storage_call) (effect : world -> world * A)
  : M A :=
  fun w =>
    let w' := mkWorld (disk w) (txn w) (stdout w) (calls w ++ [c])%list in
    if fails c then (w', Raised OperationalError)
    else let (w'', a) := effect w' in (w'', Returned a).

Definition with_txn (t : option table) (w : world) : world :=
  mkWorld (disk w) t (stdout w) (calls w).

(** [sqlite3.connect(DB_PATH)] *)
Definition connect : M unit :=
  storage Connect (fun w => (w, tt)).

(** [conn.execute(INSERT ... ON CONFLICT ... DO UPDATE ...)] *)
Definition execute_upsert (a k v : string) : M unit :=
  storage Execute
    (fun w => (with_txn (Some (upsert now a k v (view w))) w, tt)).

(** [conn.execute(DELETE ...)] *)
Definition execute_delete (a k : string) : M unit :=
  storage Execute
    (fun w => (with_txn (Some (delete_rows a k (view w))) w, tt)).

(** [conn.execute(SELECT ...)]: the rows of the cursor. *)
Definition execute_select (where_ : row -> bool) : M (list row) :=
  storage Execute (fun w => (w, select where_ (view w))).

(** [conn.commit()] *)
Definition commit : M unit :=
  storage Commit
    (fun w => match txn w with
              | Some t => (mkWorld t None (stdout w) (calls w), tt)
              | None => (w, tt)
              end).

(** [conn.close()] *)
Definition close : M unit :=
  storage Close (fun w => (with_txn None w, tt)).

(** [cursor.fetchone()] and [cursor.fetchall()] *)
Definition fetchone (rows : list row) : option row := hd_error rows.
Definition fetchall (rows : list row) : list row := rows.

Definition error_payload (msg : string) : json :=
  JDict [("error", JStr msg)].

Definition usage : string :=
  "Usage: remember.py <action> <agent_id> [key] [value]".

Definition main (argv : list string) : M unit :=
  if (length argv <? 3)%nat then
    print (dumps (error_payload usage)) ;;
    sys_exit 0
  else
    action <- item argv 1 ;;
    agent_id <- item argv 2 ;;
    connect ;;
    try_finally
      (if action =? "set" then
         when (length argv <? 5)%nat
           (print (dumps (error_payload "set requires <key> and <value>")) ;;
            sys_exit 0) ;;
         key <- item argv 3 ;;
         value <- item argv 4 ;;
         execute_upsert agent_id key value ;;
         commit ;;
         print (dumps (JDict [("status", JStr "remembered");
                              ("key", JStr key); ("value", JStr value)]))
       else if action =? "get" then
         when (length argv <? 4)%nat
           (print (dumps (error_payload "get requires <key>")) ;;
            sys_exit 0) ;;
         key <- item argv 3 ;;
         rows <- execute_select (matches agent_id key) ;;
         match fetchone rows with
         | Some r =>
             print (dumps (JDict [("key", JStr key);
                                  ("value", JStr (value r))]))
         | None =>
             print (dumps (JDict [("error", JStr "not found");
                                  ("key", JStr key)]))
         end
       else if action =? "list" then
         rows <- execute_select (owned_by agent_id) ;;
         let memories :=
           map (fun r => JDict [("key", JStr (key r));
                                ("value", JStr (value r))])
               (fetchall rows) in
         print (dumps (JDict [("memories", JList memories)]))
       else if action =? "delete" then
         when (length argv <? 4)%nat
           (print (dumps (error_payload "delete requires <key>")) ;;
            sys_exit 0) ;;
         key <- item argv 3 ;;
         execute_delete agent_id key ;;
         commit ;;
         print (dumps (JDict [("status", JStr "deleted");
                              ("key", JStr key)]))
       else
         print (dumps (error_payload
                  ("Unknown action: " ++ action
                     ++ ". Use set, get, list, or delete."))))
      close.

(** One invocation of the script as a process: it starts from the table on
    disk with nothing printed, and ends with an exit status: 0 when [main]
    returns, the code of [sys.exit], 1 for an exception nothing caught. *)
Record result : Type := mkResult {
  output : string;
  exit_code : Z;
  stored : table;
  storage_calls : list storage_call
}.

Definition run (argv : list string) (t : table) : result :=
  let (w, o) := main argv (mkWorld t None "" []) in
  mkResult (stdout w)
           (match o with
            | Returned _ => 0
            | Raised (SystemExit code) => code
            | Raised _ => 1
            end)
           (disk w) (calls w).

End Script.

Arguments run {_} fails now argv t.
Arguments main {_} fails now argv _.

(** No call to the storage library fails. *)
Definition healthy : storage_call -> bool := fun _ => false.

(** The storage is unavailable: no connection can be opened. *)
Definition unavailable : storage_call -> bool :=
  fun c => match c with Connect => true | _ => false end.

(** ** Vocabulary of the properties *)

(** No storage operation fails in the invocation that ended with [r]: each
    call it made to the storage library succeeded. *)
Definition calls_succeed (fails : storage_call -> bool) (r : result) : Prop :=
  forall c, In c (storage_calls r) -> fails c = false.

(** No call to the storage library fails in this invocation. *)
Definition no_failure (fails : storage_call -> bool) : Prop :=
  forall c, fails c = false.

Ltac unfold_script :=
  unfold run, main, when, item, sys_exit, raise, connect, execute_upsert,
    execute_delete, execute_select, commit, close, storage, try_finally,
    bind, ret, print, with_txn, view, fetchone, fetchall.

(** Runs the script when every storage call succeeds ([Hf]). *)
Ltac run_script Hf :=
  unfold_script; cbn; rewrite ?Hf; cbn.

(** Runs the script whatever storage calls fail. *)
Ltac run_script_faulty fails :=
  unfold_script; cbn;
  destruct (fails Connect); cbn; try reflexivity;
  destruct (fails Execute); cbn;
  destruct (fails Commit); cbn;
  destruct (fails Close); cbn.

(** Closes a goal in which a call the invocation made has failed, against
    the hypothesis that its calls succeed. *)
Ltac failed_call fails :=
  match goal with
  | E : fails ?c = true |- _ =>
      let Hok := fresh in
      intros Hok; exfalso;
      assert (fails c = false) by (apply Hok; simpl; tauto);
      congruence
  end.

(** What [print(json.dumps(j))] writes. *)
Definition line (j : json) : string := dumps j ++ chr newline.

(** The invocations whose arguments fail the validation of their action,
    with the message of the error: [set] without a key and a value, [get]
    or [delete] without a key. *)
Definition validation_error (argv : list string) : option string :=
  match argv with
  | _ :: action :: _ :: _ =>
      if action =? "set" then
        if (length argv <? 5)%nat then Some "set requires <key> and <value>"
        else None
      else if action =? "get" then
        if (length argv <? 4)%nat then Some "get requires <key>" else None
      else if action =? "delete" then
        if (length argv <? 4)%nat then Some "delete requires <key>" else None
      else None
  | _ => None
  end.



(** The entry [list] prints for a row. *)
Definition memory (r : row) : json :=
  JDict [("key", JStr (key r)); ("value", JStr (value r))].

(** One [set] invocation of a series: the time it runs at, its key and its
    value. *)
Definition set_call : Type := (timestamp * string * string)%type.

Definition call_key (s : set_call) : string := snd (fst s).

Definition call_memory (s : set_call) : json :=
  JDict [("key", JStr (snd (fst s))); ("value", JStr (snd s))].

(** The table a series of [set] invocations for one agent leaves, each
    invocation starting from what the one before it stored. *)
Fixpoint after_sets `{Engine} (agent : string) (sets : list set_call)
  (t : table) : table :=
  match sets with
  | [] => t
  | (now, k, v) :: more =>
      after_sets agent more
        (stored (run healthy now ["remember.py"; "set"; agent; k; v] t))
  end.

(** The row a [set] inserts for an agent that has none under the key. *)
Definition inserted `{Engine} (agent : string) (s : set_call) : row :=
  mkRow agent (snd (fst s)) (snd s) (updated_at_default (fst (fst s))).

(** The table of the examples: a record of agent [a1] and one of agent
    [a2]. *)
Definition blue : row := mkRow "a1" "color" "blue" 5%N.
Definition other : row := mkRow "a2" "color" "green" 1%N.

(** What a record says, its [updated_at] left aside. *)
Definition content (r : row) : string * string * string :=
  (agent_id r, key r, value r).

(** Every character of a text satisfies [p]. *)
Fixpoint all_chars (p : ascii -> bool) (s : string) : bool :=
  match s with
  | EmptyString => true
  | String c s' => (p c && all_chars p s')%bool
  end.

Definition is_ascii (c : ascii) : bool := (nat_of_ascii c <? 128)%nat.

(** Runs the script on every shape of [argv] and every pattern of failing
    storage calls: one goal for each path through [main]. *)
Ltac all_runs fails argv :=
  let p := fresh "p" in
  let action := fresh "action" in
  let a := fresh "a" in
  let rest := fresh "rest" in
  let k := fresh "k" in
  let v := fresh "v" in
  destruct argv as [| p [| action [| a rest]]];
  [ unfold_script; cbn | unfold_script; cbn | unfold_script; cbn
  | destruct rest as [| k [| v rest]];
    unfold_script; cbn;
    destruct (action =? "set"); cbn;
    try (destruct (action =? "get"); cbn);
    try (destruct (action =? "list"); cbn);
    try (destruct (action =? "delete"); cbn);
    destruct (fails Connect) eqn:?; cbn;
    try (destruct (fails Execute) eqn:?; cbn);
    try match goal with
        | |- context [hd_error ?x] => destruct (hd_error x); cbn
        end;
    try (destruct (fails Commit) eqn:?; cbn);
    try (destruct (fails Close) eqn:?; cbn) ].

(** * Properties *)

(** ** [json.dumps] writes no line break *)

Module Json.

(** Induction on JSON values, with the hypothesis for the members of a list
    and of a dict. *)
Lemma json_ind (P : json -> Prop) :
  (forall s, P (JStr s)) ->
  (forall items, Forall P items -> P (JList items)) ->
  (forall fields, Forall (fun kv => P (snd kv)) fields -> P (JDict fields)) ->
  forall j, P j.
Proof.
  intros Hstr Hlist Hdict.
  fix IH 1.
  intros [s | items | fields].
  - apply Hstr.
  - apply Hlist.
    induction items as [| x r IHr]; constructor; [apply IH | exact IHr].
  - apply Hdict.
    induction fields as [| [k v] r IHr]; constructor; [apply IH | exact IHr].
Qed.

Lemma count_newlines_app (s1 s2 : string) :
  count_newlines (s1 ++ s2) = count_newlines s1 + count_newlines s2.
Proof.
  induction s1 as [| c s1 IH]; simpl; [reflexivity |].
  rewrite IH. lia.
Qed.

Lemma escape_char_one_line (c : ascii) :
  count_newlines (escape_char c) = 0.
Proof.
  destruct c as [[] [] [] [] [] [] [] []]; reflexivity.
Qed.

Lemma escape_one_line (s : string) : count_newlines (escape s) = 0.
Proof.
  induction s as [| c s IH]; simpl; [reflexivity |].
  now rewrite count_newlines_app, escape_char_one_line, IH.
Qed.

Lemma encode_str_one_line (s : string) :
  count_newlines (encode_str s) = 0.
Proof.
  unfold encode_str. simpl.
  now rewrite count_newlines_app, escape_one_line.
Qed.

Lemma concat_one_line (sep : string) (l : list string) :
  count_newlines sep = 0 ->
  Forall (fun s => count_newlines s = 0) l ->
  count_newlines (String.concat sep l) = 0.
Proof.
  intros Hsep Hl.
  induction Hl as [| s r Hs Hr IH]; [reflexivity |].
  destruct r as [| s' r']; simpl; [exact Hs |].
  rewrite !count_newlines_app, Hs, Hsep.
  simpl in IH. now rewrite IH.
Qed.

(** However many line breaks the strings of a payload hold, its JSON text
    holds none: [json.dumps] escapes them. *)
Lemma dumps_one_line (j : json) : count_newlines (dumps j) = 0.
Proof.
  induction j as [s | items IH | fields IH] using json_ind; simpl.
  - apply encode_str_one_line.
  - rewrite count_newlines_app. simpl.
    rewrite concat_one_line; [reflexivity | reflexivity |].
    apply Forall_map. exact IH.
  - rewrite count_newlines_app. simpl.
    rewrite concat_one_line; [reflexivity | reflexivity |].
    apply Forall_map.
    apply (Forall_impl _ (P := fun kv => count_newlines (dumps (snd kv)) = 0));
      [| exact IH].
    intros [k v] Hv. cbn beta iota delta [fst snd] in *.
    simpl. rewrite !count_newlines_app, escape_one_line. simpl. exact Hv.
Qed.

(** A printed payload is one line. *)
Lemma printed_one_line (j : json) :
  count_newlines (dumps j ++ chr newline) = 1.
Proof.
  rewrite count_newlines_app, dumps_one_line. reflexivity.
Qed.

End Json.

Arguments dumps : simpl never.

(** ** The statements and the table *)

Module Table.

Lemma matches_spec (a k : string) (r : row) :
  matches a k r = true <-> agent_id r = a /\ key r = k.
Proof.
  unfold matches.
  rewrite andb_true_iff, !String.eqb_eq. reflexivity.
Qed.

Lemma matches_keys (a k : string) (r : row) :
  matches a k r = true <-> (agent_id r, key r) = (a, k).
Proof.
  rewrite matches_spec. split.
  - intros [-> ->]. reflexivity.
  - intros E. inversion E. auto.
Qed.

Lemma matches_owned (a k : string) (r : row) :
  matches a k r = true -> owned_by a r = true.
Proof.
  unfold matches, owned_by. intros E.
  apply andb_true_iff in E. tauto.
Qed.

Lemma existsb_false_filter (p : row -> bool) (t : table) :
  existsb p t = false -> filter p t = [].
Proof.
  induction t as [| r t IH]; simpl; [reflexivity |].
  destruct (p r); simpl; [discriminate | exact IH].
Qed.

Lemma existsb_false_in (p : row -> bool) (t : table) (r : row) :
  existsb p t = false -> In r t -> p r = false.
Proof.
  intros E Hin.
  destruct (p r) eqn:Ep; [| reflexivity].
  assert (existsb p t = true) by (apply existsb_exists; eauto).
  congruence.
Qed.

Section Upsert.

Context `{Engine}.
Variables (now : timestamp) (a k v : string).

Lemma refresh_keys (r : row) :
  (agent_id (refresh now a k v r), key (refresh now a k v r)) = (agent_id r, key r).
Proof. unfold refresh. destruct (matches a k r); reflexivity. Qed.

Lemma refresh_matches (a' k' : string) (r : row) :
  matches a' k' (refresh now a k v r) = matches a' k' r.
Proof. unfold refresh. destruct (matches a k r); reflexivity. Qed.

Lemma upsert_update (t : table) :
  existsb (matches a k) t = true -> upsert now a k v t = map (refresh now a k v) t.
Proof. unfold upsert. intros ->. reflexivity. Qed.

Lemma upsert_insert (t : table) :
  existsb (matches a k) t = false ->
  upsert now a k v t = (t ++ [mkRow a k v (updated_at_default now)])%list.
Proof. unfold upsert. intros ->. reflexivity. Qed.

Lemma matches_self (x : timestamp) : matches a k (mkRow a k v x) = true.
Proof. apply matches_spec. split; reflexivity. Qed.

(** The rows an upsert leaves under [(a, k)]: there is one, and each
    holds the value [v]. *)
Lemma upsert_matching (t : table) :
  filter (matches a k) (upsert now a k v t) <> [] /\
  Forall (fun r => value r = v) (filter (matches a k) (upsert now a k v t)).
Proof.
  destruct (existsb (matches a k) t) eqn:E.
  - rewrite (upsert_update t E). split.
    + apply existsb_exists in E. destruct E as [r [Hin Hm]].
      intros Hnil.
      assert (Hr : In (refresh now a k v r) (filter (matches a k) (map (refresh now a k v) t))).
      { apply filter_In. split; [now apply in_map |].
        now rewrite refresh_matches. }
      rewrite Hnil in Hr. exact Hr.
    + apply Forall_forall. intros r Hr.
      apply filter_In in Hr. destruct Hr as [Hin Hm].
      apply in_map_iff in Hin. destruct Hin as [r0 [<- _]].
      rewrite refresh_matches in Hm.
      unfold refresh. rewrite Hm. reflexivity.
  - rewrite (upsert_insert t E), filter_app, (existsb_false_filter _ _ E).
    simpl. rewrite matches_self. split; [discriminate |].
    constructor; [reflexivity | constructor].
Qed.

(** An upsert leaves every row under another [(agent_id, key)] as it was,
    and in its place. *)
Lemma upsert_frame (t : table) :
  filter (fun r => negb (matches a k r)) (upsert now a k v t) =
  filter (fun r => negb (matches a k r)) t.
Proof.
  destruct (existsb (matches a k) t) eqn:E.
  - rewrite (upsert_update t E). clear E.
    induction t as [| r t IH]; simpl; [reflexivity |].
    rewrite refresh_matches.
    destruct (matches a k r) eqn:Er; simpl; [exact IH |].
    unfold refresh at 1. rewrite Er. now rewrite IH.
  - rewrite (upsert_insert t E), filter_app. simpl.
    rewrite matches_self. simpl. apply app_nil_r.
Qed.

Lemma upsert_keys_update (t : table) :
  existsb (matches a k) t = true ->
  map (fun r => (agent_id r, key r)) (upsert now a k v t) =
  map (fun r => (agent_id r, key r)) t.
Proof.
  intros E. rewrite (upsert_update t E), map_map.
  apply map_ext. intros r. apply refresh_keys.
Qed.

(** The unique constraint is an invariant of [set]. *)
Lemma upsert_unique (t : table) :
  unique_keys t -> unique_keys (upsert now a k v t).
Proof.
  unfold unique_keys. intros Hu.
  destruct (existsb (matches a k) t) eqn:E.
  - now rewrite (upsert_keys_update t E).
  - rewrite (upsert_insert t E), map_app. simpl.
    apply NoDup_app_remove_l with (l := []). simpl.
    apply Permutation_NoDup with (l := (a, k) :: map (fun r => (agent_id r, key r)) t).
    + apply Permutation_cons_append.
    + constructor; [| exact Hu].
      intros Hin. apply in_map_iff in Hin. destruct Hin as [r [Hk Hr]].
      apply matches_keys in Hk.
      rewrite (existsb_false_in _ _ _ E Hr) in Hk. discriminate.
Qed.

(** Under the unique constraint a conflicting [set] leaves one row under
    [(a, k)]: the new value, stamped with the current time. *)
Lemma upsert_conflict (t : table) :
  unique_keys t ->
  existsb (matches a k) t = true ->
  filter (matches a k) (upsert now a k v t) = [mkRow a k v now].
Proof.
  intros Hu E. rewrite (upsert_update t E).
  unfold unique_keys in Hu.
  induction t as [| r t IH]; simpl in *; [discriminate |].
  inversion Hu as [| x l Hnotin Hu']; subst.
  rewrite refresh_matches.
  destruct (matches a k r) eqn:Er; simpl in E.
  - unfold refresh at 1. rewrite Er.
    apply matches_spec in Er. destruct Er as [Ea Ek].
    rewrite Ea, Ek. f_equal.
    assert (Hnone : forall r', In r' t -> matches a k r' = false).
    { intros r' Hin. destruct (matches a k r') eqn:Er'; [| reflexivity].
      exfalso. apply Hnotin. apply in_map_iff. exists r'. split; [| exact Hin].
      apply matches_keys in Er'. rewrite Er', Ea, Ek. reflexivity. }
    clear - Hnone.
    induction t as [| r' t IH]; simpl; [reflexivity |].
    rewrite refresh_matches, (Hnone r' (or_introl eq_refl)).
    apply IH. intros r'' Hin. apply Hnone. now right.
  - apply IH; assumption.
Qed.

Lemma upsert_length_update (t : table) :
  existsb (matches a k) t = true ->
  length (upsert now a k v t) = length t.
Proof. intros E. rewrite (upsert_update t E). apply length_map. Qed.

End Upsert.

Lemma delete_unique (a k : string) (t : table) :
  unique_keys t -> unique_keys (delete_rows a k t).
Proof.
  unfold unique_keys, delete_rows.
  induction t as [| r t IH]; simpl; intros Hu; [exact Hu |].
  inversion Hu as [| x l Hnotin Hu']; subst.
  destruct (negb (matches a k r)); simpl; [| now apply IH].
  constructor; [| now apply IH].
  intros Hin. apply Hnotin.
  apply in_map_iff in Hin. destruct Hin as [r' [Hk Hr']].
  apply filter_In in Hr'. apply in_map_iff. exists r'. tauto.
Qed.

(** A delete leaves every row under another [(agent_id, key)] as it was. *)
Lemma delete_frame (a k : string) (t : table) :
  filter (fun r => negb (matches a k r)) (delete_rows a k t) =
  filter (fun r => negb (matches a k r)) t.
Proof.
  unfold delete_rows.
  induction t as [| r t IH]; simpl; [reflexivity |].
  destruct (negb (matches a k r)) eqn:E; simpl; [| exact IH].
  rewrite E. now rewrite IH.
Qed.

Section Select.

Context `{Engine}.

Lemma select_perm (p : row -> bool) (t : table) :
  Permutation (select p t) (filter p t).
Proof. apply row_order_perm. Qed.

Lemma select_none (p : row -> bool) (t : table) :
  existsb p t = false -> select p t = [].
Proof.
  intros E. apply Permutation_nil. symmetry.
  rewrite <- (existsb_false_filter p t E). apply select_perm.
Qed.

Lemma select_in (p : row -> bool) (t : table) (r : row) :
  In r (select p t) <-> In r t /\ p r = true.
Proof.
  rewrite <- filter_In. split; apply Permutation_in.
  - apply select_perm.
  - symmetry. apply select_perm.
Qed.

End Select.

End Table.

(** ** What one invocation does, branch by branch *)

Section Branches.

Context `{Engine}.
Variable fails : storage_call -> bool.
Variable now : timestamp.
Variables (prog agent : string) (t : table).

(** Fewer than two arguments after the program name: no storage call at
    all, whatever the state of the storage. *)
Lemma run_usage (argv : list string) :
  length argv < 3 ->
  run fails now argv t = mkResult (line (error_payload usage)) 0 t [].
Proof.
  intros Hlen.
  destruct argv as [| a0 [| a1 [| a2 rest]]]; simpl in Hlen;
    try lia; reflexivity.
Qed.

(** The connection is opened before the action is looked at: when it
    cannot be opened nothing is printed. *)
Lemma run_unavailable (argv : list string) :
  3 <= length argv ->
  fails Connect = true ->
  run fails now argv t = mkResult "" 1 t [Connect].
Proof.
  intros Hlen Hc.
  destruct argv as [| a0 [| a1 [| a2 rest]]]; simpl in Hlen; try lia.
  unfold_script; cbn. rewrite Hc. reflexivity.
Qed.

(** The arguments of the action are checked with the connection open; an
    invocation that fails the check prints its error and closes the
    connection, and has run no statement. *)
Lemma run_set_missing (rest : list string) :
  fails Connect = false -> fails Close = false ->
  length rest < 2 ->
  run fails now (prog :: "set" :: agent :: rest) t =
  mkResult (line (error_payload "set requires <key> and <value>"))
           0 t [Connect; Close].
Proof.
  intros Hc Hcl Hlen.
  destruct rest as [| k [| v rest]]; simpl in Hlen; try lia;
    unfold_script; cbn; rewrite Hc; cbn; rewrite Hcl; reflexivity.
Qed.

Lemma run_get_missing :
  fails Connect = false -> fails Close = false ->
  run fails now [prog; "get"; agent] t =
  mkResult (line (error_payload "get requires <key>")) 0 t [Connect; Close].
Proof.
  intros Hc Hcl.
  unfold_script; cbn; rewrite Hc; cbn; rewrite Hcl; reflexivity.
Qed.

Lemma run_delete_missing :
  fails Connect = false -> fails Close = false ->
  run fails now [prog; "delete"; agent] t =
  mkResult (line (error_payload "delete requires <key>"))
           0 t [Connect; Close].
Proof.
  intros Hc Hcl.
  unfold_script; cbn; rewrite Hc; cbn; rewrite Hcl; reflexivity.
Qed.

Hypothesis Hf : no_failure fails.

Lemma run_set (k v : string) (rest : list string) :
  run fails now (prog :: "set" :: agent :: k :: v :: rest) t =
  mkResult
    (line (JDict [("status", JStr "remembered");
                  ("key", JStr k); ("value", JStr v)]))
    0 (upsert now agent k v t) [Connect; Execute; Commit; Close].
Proof. run_script Hf. reflexivity. Qed.

Lemma run_get (k : string) (rest : list string) :
  run fails now (prog :: "get" :: agent :: k :: rest) t =
  mkResult
    (line match hd_error (select (matches agent k) t) with
          | Some r => JDict [("key", JStr k); ("value", JStr (value r))]
          | None => JDict [("error", JStr "not found"); ("key", JStr k)]
          end)
    0 t [Connect; Execute; Close].
Proof.
  run_script Hf.
  destruct (hd_error (select (matches agent k) t)); cbn; rewrite ?Hf;
    reflexivity.
Qed.

Lemma run_list (rest : list string) :
  run fails now (prog :: "list" :: agent :: rest) t =
  mkResult
    (line (JDict [("memories",
                   JList (map (fun r => JDict [("key", JStr (key r));
                                               ("value", JStr (value r))])
                              (select (owned_by agent) t)))]))
    0 t [Connect; Execute; Close].
Proof. run_script Hf. reflexivity. Qed.

Lemma run_delete (k : string) (rest : list string) :
  run fails now (prog :: "delete" :: agent :: k :: rest) t =
  mkResult (line (JDict [("status", JStr "deleted"); ("key", JStr k)]))
           0 (delete_rows agent k t) [Connect; Execute; Commit; Close].
Proof. run_script Hf. reflexivity. Qed.

Lemma run_unknown (action : string) (rest : list string) :
  (action =? "set") = false -> (action =? "get") = false ->
  (action =? "list") = false -> (action =? "delete") = false ->
  run fails now (prog :: action :: agent :: rest) t =
  mkResult
    (line (error_payload
             ("Unknown action: " ++ action
                ++ ". Use set, get, list, or delete.")))
    0 t [Connect; Close].
Proof.
  intros E1 E2 E3 E4.
  unfold_script; cbn. rewrite E1, E2, E3, E4, ?Hf. cbn. rewrite ?Hf.
  reflexivity.
Qed.

End Branches.

(** ** What an invocation can leave on disk, whatever fails *)

Section Stored.

Context `{Engine}.
Variable fails : storage_call -> bool.
Variable now : timestamp.
Variable t : table.

Lemma stored_get (prog agent : string) (rest : list string) :
  stored (run fails now (prog :: "get" :: agent :: rest) t) = t.
Proof.
  destruct rest as [| k rest].
  - run_script_faulty fails; reflexivity.
  - run_script_faulty fails;
      destruct (hd_error (select (matches agent k) t)); reflexivity.
Qed.

Lemma stored_list (prog agent : string) (rest : list string) :
  stored (run fails now (prog :: "list" :: agent :: rest) t) = t.
Proof. run_script_faulty fails; reflexivity. Qed.

(** A [set] is committed or leaves the table as it was. *)
Lemma stored_set (prog agent : string) (rest : list string) :
  stored (run fails now (prog :: "set" :: agent :: rest) t) = t \/
  exists k v rest',
    rest = k :: v :: rest' /\
    stored (run fails now (prog :: "set" :: agent :: rest) t)
    = upsert now agent k v t.
Proof.
  destruct rest as [| k [| v rest]].
  - left. run_script_faulty fails; reflexivity.
  - left. run_script_faulty fails; reflexivity.
  - run_script_faulty fails; try (left; reflexivity);
      right; exists k, v, rest; split; reflexivity.
Qed.

(** A [delete] is committed or leaves the table as it was. *)
Lemma stored_delete (prog agent : string) (rest : list string) :
  stored (run fails now (prog :: "delete" :: agent :: rest) t) = t \/
  exists k rest',
    rest = k :: rest' /\
    stored (run fails now (prog :: "delete" :: agent :: rest) t)
    = delete_rows agent k t.
Proof.
  destruct rest as [| k rest].
  - left. run_script_faulty fails; reflexivity.
  - run_script_faulty fails; try (left; reflexivity);
      right; exists k, rest; split; reflexivity.
Qed.

(** What an invocation leaves on disk: the table it found, or that table
    after its upsert or its delete. *)
Lemma stored_cases (argv : list string) :
  stored (run fails now argv t) = t
  \/ (exists a k v, stored (run fails now argv t) = upsert now a k v t)
  \/ (exists a k, stored (run fails now argv t) = delete_rows a k t).
Proof.
  destruct argv as [| p [| action [| a rest]]]; try (left; reflexivity).
  destruct (action =? "set") eqn:E1.
  { apply String.eqb_eq in E1. subst action.
    destruct (stored_set p a rest) as [-> | [k [v [rest' [_ ->]]]]];
      [left; reflexivity | right; left; eauto]. }
  destruct (action =? "get") eqn:E2.
  { apply String.eqb_eq in E2. subst action.
    left. apply stored_get. }
  destruct (action =? "list") eqn:E3.
  { apply String.eqb_eq in E3. subst action.
    left. apply stored_list. }
  destruct (action =? "delete") eqn:E4.
  { apply String.eqb_eq in E4. subst action.
    destruct (stored_delete p a rest) as [-> | [k [rest' [_ ->]]]];
      [left; reflexivity | right; right; eauto]. }
  left. unfold_script; cbn. rewrite E1, E2, E3, E4.
  destruct (fails Connect); cbn; [reflexivity |].
  destruct (fails Close); reflexivity.
Qed.

(** The unique constraint is an invariant of the script. *)
Lemma run_preserves_unique (argv : list string) :
  unique_keys t -> unique_keys (stored (run fails now argv t)).
Proof.
  intros Hu.
  destruct (stored_cases argv) as [-> | [[a [k [v ->]]] | [a [k ->]]]].
  - exact Hu.
  - now apply Table.upsert_unique.
  - now apply Table.delete_unique.
Qed.

(** An invocation reads the state of the storage through the calls it
    makes: when each of them succeeds it runs as on a storage where every
    call succeeds. *)
Lemma run_when_calls_succeed (argv : list string) :
  calls_succeed fails (run fails now argv t) ->
  run fails now argv t = run healthy now argv t.
Proof.
  unfold calls_succeed.
  destruct argv as [| p [| action [| a rest]]]; try reflexivity.
  destruct rest as [| k [| v rest]];
    unfold_script; cbn;
    destruct (action =? "set"); cbn;
    try (destruct (action =? "get"); cbn);
    try (destruct (action =? "list"); cbn);
    try (destruct (action =? "delete"); cbn);
    destruct (fails Connect) eqn:?; cbn;
    try (destruct (fails Execute) eqn:?; cbn);
    try match goal with
        | |- context [hd_error ?x] => destruct (hd_error x); cbn
        end;
    try (destruct (fails Commit) eqn:?; cbn);
    try (destruct (fails Close) eqn:?; cbn);
    first [ intros _; reflexivity | failed_call fails ].
Qed.

End Stored.

(** ** The four actions *)

Section Actions.

Context `{Engine}.

Lemma healthy_no_failure : no_failure healthy.
Proof. intros c. reflexivity. Qed.

(** Under the unique constraint a key selects its one row. *)
Lemma select_unique (a k : string) (t : table) (r : row) :
  unique_keys t -> In r t -> matches a k r = true ->
  select (matches a k) t = [r].
Proof.
  intros Hu Hin Hm.
  apply Permutation_length_1_inv.
  eapply Permutation_trans; [| apply Permutation_sym, Table.select_perm].
  apply Permutation_refl'. symmetry.
  unfold unique_keys in Hu.
  induction t as [| r0 t IH]; [destruct Hin |].
  inversion Hu as [| x l Hnotin Hu']; subst.
  destruct Hin as [-> | Hin]; simpl.
  - rewrite Hm. f_equal.
    apply Table.existsb_false_filter.
    destruct (existsb (matches a k) t) eqn:E; [| reflexivity].
    exfalso. apply Hnotin.
    apply existsb_exists in E. destruct E as [r' [Hin' Hm']].
    apply in_map_iff. exists r'. split; [| exact Hin'].
    apply Table.matches_keys in Hm, Hm'. congruence.
  - destruct (matches a k r0) eqn:E0; [| now apply IH].
    exfalso. apply Hnotin.
    apply in_map_iff. exists r. split; [| exact Hin].
    apply Table.matches_keys in Hm, E0. congruence.
Qed.

(** C1. For every agent_id, key and value, a [set] followed by a [get] of
    the same pair on the table the [set] left returns the payload
    [{key, value}] with the value that was set. *)
Theorem set_then_get
  (now now' : timestamp) (prog prog' agent k v : string)
  (rest rest' : list string) (t : table) :
  let t' :=
    stored (run healthy now (prog :: "set" :: agent :: k :: v :: rest) t) in
  output (run healthy now' (prog' :: "get" :: agent :: k :: rest') t')
  = line (JDict [("key", JStr k); ("value", JStr v)]).
Proof.
  intros t'. subst t'.
  rewrite (run_set _ _ _ _ _ healthy_no_failure).
  rewrite (run_get _ _ _ _ _ healthy_no_failure).
  cbn [stored output].
  destruct (Table.upsert_matching now agent k v t) as [Hne Hall].
  pose proof (Table.select_perm (matches agent k) (upsert now agent k v t))
    as Hperm.
  destruct (select (matches agent k) (upsert now agent k v t))
    as [| r rows] eqn:Es.
  - apply Permutation_nil in Hperm. contradiction.
  - cbn [hd_error].
    assert (Hr : value r = v).
    { rewrite Forall_forall in Hall. apply Hall.
      apply (Permutation_in r Hperm). now left. }
    now rewrite Hr.
Qed.

(** C3. For every agent_id and key, [delete] prints the payload
    [{status: "deleted", key}] and exits with 0 whatever the table holds:
    nothing looks for the record first, and the payload is the same when
    no row matches. *)
Theorem delete_reports_deleted
  (now : timestamp) (prog agent k : string) (rest : list string)
  (t : table) :
  let r := run healthy now (prog :: "delete" :: agent :: k :: rest) t in
  output r = line (JDict [("status", JStr "deleted"); ("key", JStr k)])
  /\ exit_code r = 0%Z
  /\ storage_calls r = [Connect; Execute; Commit; Close].
Proof.
  intros r. subst r.
  rewrite (run_delete _ _ _ _ _ healthy_no_failure).
  repeat split.
Qed.

(** C4. When a record for [(agent_id, key)] exists in a table that meets
    the unique constraint, [set] adds no record: the table keeps its
    length, the one record under [(agent_id, key)] holds the new value and
    the current time as [updated_at], and the table still meets the unique
    constraint. *)
Theorem set_overwrites
  (now : timestamp) (prog agent k v : string) (rest : list string)
  (t : table) :
  unique_keys t ->
  existsb (matches agent k) t = true ->
  let t' :=
    stored (run healthy now (prog :: "set" :: agent :: k :: v :: rest) t) in
  length t' = length t
  /\ filter (matches agent k) t' = [mkRow agent k v now]
  /\ unique_keys t'.
Proof.
  intros Hu E t'. subst t'.
  rewrite (run_set _ _ _ _ _ healthy_no_failure). cbn [stored].
  split; [| split].
  - now apply Table.upsert_length_update.
  - now apply Table.upsert_conflict.
  - now apply Table.upsert_unique.
Qed.

(** C6. When no record exists for [(agent_id, key)], [get] prints the
    payload [{error: "not found", key}] and exits with 0; when the record
    exists (in a table that meets the unique constraint) it prints
    [{key, value}] with the record's value. *)
Theorem get_found_or_not
  (now : timestamp) (prog agent k : string) (rest : list string)
  (t : table) :
  let r := run healthy now (prog :: "get" :: agent :: k :: rest) t in
  (existsb (matches agent k) t = false ->
   output r = line (JDict [("error", JStr "not found"); ("key", JStr k)])
   /\ exit_code r = 0%Z)
  /\ (forall rec, unique_keys t -> In rec t -> matches agent k rec = true ->
      output r = line (JDict [("key", JStr k); ("value", JStr (value rec))])
      /\ exit_code r = 0%Z).
Proof.
  intros r. subst r.
  rewrite (run_get _ _ _ _ _ healthy_no_failure). cbn [output exit_code].
  split.
  - intros E. now rewrite (Table.select_none _ _ E).
  - intros rec Hu Hin Hm. now rewrite (select_unique _ _ _ _ Hu Hin Hm).
Qed.

(** C9. [get] and [list] never modify the table: whatever the table, the
    arguments and the storage calls that fail, the table an invocation of
    [get] or [list] leaves is the table it started from. *)
Theorem get_list_read_only
  (fails : storage_call -> bool) (now : timestamp) (prog agent : string)
  (rest : list string) (t : table) :
  stored (run fails now (prog :: "get" :: agent :: rest) t) = t
  /\ stored (run fails now (prog :: "list" :: agent :: rest) t) = t.
Proof.
  split; [apply stored_get | apply stored_list].
Qed.

(** C10. [set] and [delete] modify at most the record under the given
    [(agent_id, key)]: whatever the table and the storage calls that fail,
    the rows under any other [(agent_id, key)], those of other agents
    among them, are after the invocation what they were before it, in the
    same order. *)
Theorem set_delete_frame
  (fails : storage_call -> bool) (now : timestamp) (prog agent k v : string)
  (rest : list string) (t : table) :
  let other := fun r => negb (matches agent k r) in
  filter other
    (stored (run fails now (prog :: "set" :: agent :: k :: v :: rest) t))
  = filter other t
  /\ filter other
       (stored (run fails now (prog :: "delete" :: agent :: k :: rest) t))
     = filter other t.
Proof.
  intros other. subst other. split.
  - destruct (stored_set fails now t prog agent (k :: v :: rest))
      as [-> | [k' [v' [rest' [Erest ->]]]]]; [reflexivity |].
    injection Erest as <- <- _. apply Table.upsert_frame.
  - destruct (stored_delete fails now t prog agent (k :: rest))
      as [-> | [k' [rest' [Erest ->]]]]; [reflexivity |].
    injection Erest as <- _. apply Table.delete_frame.
Qed.

End Actions.

(** ** [list] after a series of [set]s *)

Section Listing.

Context `{Engine}.
Variable agent : string.

Lemma owned_inserted (s : set_call) : owned_by agent (inserted agent s) = true.
Proof. apply String.eqb_refl. Qed.

(** Sets under keys that the agent does not have yet, and that differ from
    one another, each add their row to the agent's rows. *)
Lemma after_sets_owned (sets : list set_call) :
  forall t,
    NoDup (map call_key sets) ->
    (forall r, In r t -> owned_by agent r = true ->
               ~ In (key r) (map call_key sets)) ->
    filter (owned_by agent) (after_sets agent sets t)
    = (filter (owned_by agent) t ++ map (inserted agent) sets)%list.
Proof.
  induction sets as [| [[now k] v] more IH]; intros t Hnd Hfresh.
  - simpl. now rewrite app_nil_r.
  - cbn [after_sets].
    rewrite (run_set _ _ _ _ _ healthy_no_failure). cbn [stored].
    assert (E : existsb (matches agent k) t = false).
    { destruct (existsb (matches agent k) t) eqn:E; [| reflexivity].
      exfalso. apply existsb_exists in E. destruct E as [r [Hin Hm]].
      apply (Hfresh r Hin (Table.matches_owned _ _ _ Hm)).
      apply Table.matches_spec in Hm. destruct Hm as [_ Hk].
      left. now rewrite Hk. }
    rewrite (Table.upsert_insert now agent k v t E).
    simpl in Hnd. inversion Hnd as [| x l Hnotin Hnd']; subst.
    rewrite IH; [| exact Hnd' |].
    + rewrite filter_app. cbn [filter].
      change (owned_by agent (mkRow agent k v (updated_at_default now)))
        with (owned_by agent (inserted agent (now, k, v))).
      rewrite owned_inserted, <- app_assoc. reflexivity.
    + intros r Hin Ho Hk. apply in_app_or in Hin.
      destruct Hin as [Hin | [<- | []]].
      * apply (Hfresh r Hin Ho). now right.
      * apply Hnotin. exact Hk.
Qed.

(** C5. [list] prints the records of the given agent and no others: the
    memories are the agent's rows in the order the engine returns them.
    After N [set] invocations under pairwise distinct keys, from a table
    with no record of the agent, they are N, one for each [set]; with no
    record of the agent the memories are the empty list. *)
Theorem list_own_records
  (now : timestamp) (prog : string) (rest : list string) :
  (forall t, exists rows,
      Permutation rows (filter (owned_by agent) t) /\
      output (run healthy now (prog :: "list" :: agent :: rest) t)
      = line (JDict [("memories", JList (map memory rows))]))
  /\ (forall sets t,
         existsb (owned_by agent) t = false ->
         NoDup (map call_key sets) ->
         exists memories,
           output (run healthy now (prog :: "list" :: agent :: rest)
                       (after_sets agent sets t))
           = line (JDict [("memories", JList memories)])
           /\ length memories = length sets
           /\ Permutation memories (map call_memory sets))
  /\ (forall t,
         existsb (owned_by agent) t = false ->
         output (run healthy now (prog :: "list" :: agent :: rest) t)
         = line (JDict [("memories", JList [])])).
Proof.
  split; [| split].
  - intros t. exists (select (owned_by agent) t). split.
    + apply Table.select_perm.
    + now rewrite (run_list _ _ _ _ _ healthy_no_failure).
  - intros sets t Hnone Hnd.
    rewrite (run_list _ _ _ _ _ healthy_no_failure). cbn [output].
    pose proof (Table.select_perm (owned_by agent) (after_sets agent sets t))
      as Hperm.
    rewrite after_sets_owned in Hperm; [| exact Hnd |].
    + rewrite (Table.existsb_false_filter _ _ Hnone) in Hperm.
      cbn [app] in Hperm.
      eexists. split; [reflexivity |].
      assert (Hmem : Permutation
                       (map memory (select (owned_by agent)
                                           (after_sets agent sets t)))
                       (map call_memory sets)).
      { replace (map call_memory sets) with (map memory (map (inserted agent) sets)).
        - now apply Permutation_map.
        - rewrite map_map. apply map_ext. intros [[n k] v]. reflexivity. }
      split; [| exact Hmem].
      exact (eq_trans (Permutation_length Hmem) (length_map _ _)).
    + intros r Hin Ho.
      rewrite (Table.existsb_false_in _ _ _ Hnone Hin) in Ho. discriminate.
  - intros t Hnone.
    rewrite (run_list _ _ _ _ _ healthy_no_failure). cbn [output].
    now rewrite (Table.select_none _ _ Hnone).
Qed.

End Listing.

(** ** Errors, exit status and output *)

Section Errors.

Context `{Engine}.

(** The three shapes of an invocation that fails validation. *)
Lemma validation_error_inv (argv : list string) (msg : string) :
  validation_error argv = Some msg ->
  exists prog agent,
    (exists rest, argv = prog :: "set" :: agent :: rest /\ length rest < 2
                  /\ msg = "set requires <key> and <value>")
    \/ (argv = [prog; "get"; agent] /\ msg = "get requires <key>")
    \/ (argv = [prog; "delete"; agent] /\ msg = "delete requires <key>").
Proof.
  destruct argv as [| prog [| action [| agent rest]]]; try discriminate.
  unfold validation_error. intros Hv. exists prog, agent.
  destruct (action =? "set") eqn:E1.
  - apply String.eqb_eq in E1. subst action. left. exists rest.
    destruct rest as [| k [| v rest]]; simpl in *;
      try discriminate; injection Hv as <-; repeat split; lia.
  - destruct (action =? "get") eqn:E2.
    + apply String.eqb_eq in E2. subst action. right. left.
      destruct rest as [| k rest]; simpl in *; try discriminate.
      injection Hv as <-. split; reflexivity.
    + destruct (action =? "delete") eqn:E3; [| discriminate].
      apply String.eqb_eq in E3. subst action. right. right.
      destruct rest as [| k rest]; simpl in *; try discriminate.
      injection Hv as <-. split; reflexivity.
Qed.

(** C2, as amended.  An invocation whose arguments fail validation ([set]
    without a key and a value, [get] or [delete] without a key) is checked
    with the connection already open: opening the connection is its first
    storage call.  Whatever storage calls fail, it leaves the table as it
    was, executes no statement and commits nothing.  When the connection
    opens it prints the error payload of its action, and its storage calls
    are the opening and the closing of the connection; it exits with 0
    exactly when both succeed.  When the connection cannot be opened it
    prints nothing and exits with 1. *)
Theorem validation_error_reported
  (fails : storage_call -> bool) (now : timestamp) (argv : list string)
  (t : table) (msg : string) :
  validation_error argv = Some msg ->
  let r := run fails now argv t in
  stored r = t
  /\ ~ In Execute (storage_calls r)
  /\ ~ In Commit (storage_calls r)
  /\ hd_error (storage_calls r) = Some Connect
  /\ (fails Connect = false ->
      output r = line (error_payload msg)
      /\ storage_calls r = [Connect; Close])
  /\ (exit_code r = 0%Z <-> fails Connect = false /\ fails Close = false)
  /\ (fails Connect = true ->
      output r = "" /\ exit_code r = 1%Z /\ storage_calls r = [Connect]).
Proof.
  intros Hv. cbv zeta.
  destruct (validation_error_inv argv msg Hv)
    as [prog [agent [[rest [-> [Hlen ->]]] | [[-> ->] | [-> ->]]]]];
    [ destruct rest as [| k [| v rest]]; simpl in Hlen; try lia | | ];
    unfold_script; cbn;
    destruct (fails Connect); cbn;
    destruct (fails Close); cbn;
    repeat split;
    try reflexivity; try discriminate;
    simpl; intuition discriminate.
Qed.








(** With no storage failure an invocation prints one payload, a JSON
    object, and exits with 0. *)
Lemma run_prints_payload
  (fails : storage_call -> bool) (now : timestamp) (argv : list string)
  (t : table) :
  no_failure fails ->
  exists payload t' log,
    is_dict payload = true /\
    run fails now argv t = mkResult (line payload) 0 t' log.
Proof.
  intros Hf.
  destruct (Nat.lt_ge_cases (length argv) 3) as [Hlt | Hge].
  { rewrite run_usage by assumption.
    eexists _, _, _. split; [| reflexivity]; reflexivity. }
  destruct argv as [| prog [| action [| agent rest]]]; simpl in Hge; try lia.
  destruct (action =? "set") eqn:E1.
  { apply String.eqb_eq in E1. subst action.
    destruct rest as [| k [| v rest]].
    - rewrite run_set_missing by (try apply Hf; simpl; lia).
      eexists _, _, _. split; [| reflexivity]; reflexivity.
    - rewrite run_set_missing by (try apply Hf; simpl; lia).
      eexists _, _, _. split; [| reflexivity]; reflexivity.
    - rewrite run_set by assumption.
      eexists _, _, _. split; [| reflexivity]; reflexivity. }
  destruct (action =? "get") eqn:E2.
  { apply String.eqb_eq in E2. subst action.
    destruct rest as [| k rest].
    - rewrite run_get_missing by apply Hf.
      eexists _, _, _. split; [| reflexivity]; reflexivity.
    - rewrite run_get by assumption.
      destruct (hd_error (select (matches agent k) t));
        eexists _, _, _; (split; [| reflexivity]); reflexivity. }
  destruct (action =? "list") eqn:E3.
  { apply String.eqb_eq in E3. subst action.
    rewrite run_list by assumption.
    eexists _, _, _. split; [| reflexivity]; reflexivity. }
  destruct (action =? "delete") eqn:E4.
  { apply String.eqb_eq in E4. subst action.
    destruct rest as [| k rest].
    - rewrite run_delete_missing by apply Hf.
      eexists _, _, _. split; [| reflexivity]; reflexivity.
    - rewrite run_delete by assumption.
      eexists _, _, _. split; [| reflexivity]; reflexivity. }
  rewrite run_unknown by assumption.
  eexists _, _, _. split; [| reflexivity]; reflexivity.
Qed.

(** C8. An invocation in which no storage operation fails writes one JSON
    object and the line break that ends it to standard output, whatever its
    arguments and the table: its output is one line, never none and never
    more. *)
Theorem one_line_of_output
  (fails : storage_call -> bool) (now : timestamp) (argv : list string)
  (t : table) :
  calls_succeed fails (run fails now argv t) ->
  exists payload,
    is_dict payload = true
    /\ output (run fails now argv t) = dumps payload ++ chr newline
    /\ count_newlines (dumps payload) = 0
    /\ count_newlines (output (run fails now argv t)) = 1.
Proof.
  intros Hok.
  rewrite (run_when_calls_succeed fails now t argv Hok).
  destruct (run_prints_payload healthy now argv t healthy_no_failure)
    as [payload [t' [log [Hdict ->]]]].
  exists payload. cbn [output]. repeat split.
  - exact Hdict.
  - apply Json.dumps_one_line.
  - apply Json.printed_one_line.
Qed.

End Errors.

(** ** The properties at work

    The invocations of the example of the specification, on a table that
    holds a record of agent [a1] and one of agent [a2]. *)

Lemma unique_keys_example : unique_keys [blue; other].
Proof.
  unfold unique_keys. simpl.
  constructor; [| constructor; [| constructor]]; simpl; intuition discriminate.
Defined.

(** C2, as the specification states it, fails on [set a1]: the arguments
    fail validation, and the connection has been opened (and is closed)
    all the same; when it cannot be opened the invocation prints nothing and
    exits with 1. *)
Lemma validation_follows_connect :
  let argv := ["remember.py"; "set"; "a1"] in
  validation_error argv = Some "set requires <key> and <value>"
  /\ storage_calls (run healthy 9%N argv [blue; other]) = [Connect; Close]
  /\ storage_calls (run healthy 9%N argv [blue; other]) <> []
  /\ output (run unavailable 9%N argv [blue; other]) = ""
  /\ output (run unavailable 9%N argv [blue; other])
     <> line (error_payload "set requires <key> and <value>")
  /\ exit_code (run unavailable 9%N argv [blue; other]) = 1%Z.
Proof.
  repeat split; discriminate.
Qed.

Lemma validation_error_reported_witness :
  let argv := ["remember.py"; "set"; "a1"] in
  let r := run healthy 9%N argv [blue; other] in
  validation_error argv = Some "set requires <key> and <value>"
  /\ stored r = [blue; other]
  /\ output r = line (error_payload "set requires <key> and <value>")
  /\ storage_calls r = [Connect; Close]
  /\ exit_code r = 0%Z.
Proof.
  assert (Hv : validation_error ["remember.py"; "set"; "a1"]
               = Some "set requires <key> and <value>") by reflexivity.
  destruct (validation_error_reported healthy 9%N ["remember.py"; "set"; "a1"]
              [blue; other] "set requires <key> and <value>" Hv)
    as [Hstored [_ [_ [_ [Hopen [Hexit _]]]]]].
  destruct (Hopen eq_refl) as [Hout Hcalls].
  split; [exact Hv |].
  split; [exact Hstored |].
  split; [exact Hout |].
  split; [exact Hcalls |].
  apply Hexit. split; reflexivity.
Defined.

Lemma set_overwrites_witness :
  let t' :=
    stored (run healthy 9%N ["remember.py"; "set"; "a1"; "color"; "red"]
                [blue; other]) in
  length t' = 2
  /\ filter (matches "a1" "color") t' = [mkRow "a1" "color" "red" 9%N]
  /\ unique_keys t'.
Proof.
  apply (set_overwrites 9%N "remember.py" "a1" "color" "red" [] [blue; other]).
  - exact unique_keys_example.
  - reflexivity.
Defined.

Lemma list_own_records_witness :
  exists memories,
    output (run healthy 9%N ["remember.py"; "list"; "a1"]
                (after_sets "a1" [(6%N, "color", "blue"); (7%N, "shape", "round")]
                            [other]))
    = line (JDict [("memories", JList memories)])
    /\ length memories = 2
    /\ Permutation memories
         [JDict [("key", JStr "color"); ("value", JStr "blue")];
          JDict [("key", JStr "shape"); ("value", JStr "round")]].
Proof.
  apply (proj1 (proj2 (list_own_records "a1" 9%N "remember.py" []))
           [(6%N, "color", "blue"); (7%N, "shape", "round")] [other]).
  - reflexivity.
  - simpl. constructor; [| constructor; [| constructor]]; simpl;
      intuition discriminate.
Defined.

Lemma get_found_or_not_witness :
  output (run healthy 9%N ["remember.py"; "get"; "a1"; "shape"] [blue; other])
  = line (JDict [("error", JStr "not found"); ("key", JStr "shape")])
  /\ output (run healthy 9%N ["remember.py"; "get"; "a1"; "color"] [blue; other])
     = line (JDict [("key", JStr "color"); ("value", JStr "blue")]).
Proof.
  split.
  - apply (proj1 (get_found_or_not 9%N "remember.py" "a1" "shape" []
                    [blue; other])).
    reflexivity.
  - apply (proj2 (get_found_or_not 9%N "remember.py" "a1" "color" []
                    [blue; other]) blue).
    + exact unique_keys_example.
    + left. reflexivity.
    + reflexivity.
Defined.



Lemma one_line_of_output_witness :
  exists payload,
    is_dict payload = true
    /\ output (run healthy 9%N ["remember.py"; "list"; "a1"] [blue; other])
       = dumps payload ++ chr newline
    /\ count_newlines (dumps payload) = 0
    /\ count_newlines
         (output (run healthy 9%N ["remember.py"; "list"; "a1"] [blue; other]))
       = 1.
Proof.
  apply (one_line_of_output healthy 9%N ["remember.py"; "list"; "a1"]
           [blue; other]).
  intros c _. reflexivity.
Defined.

(** * Further properties of the script *)

(** ** How the actions compose *)

Section Composition.

Context `{Engine}.

Lemma existsb_delete_rows (a k : string) (t : table) :
  existsb (matches a k) (delete_rows a k t) = false.
Proof.
  destruct (existsb (matches a k) (delete_rows a k t)) eqn:E; [| reflexivity].
  apply existsb_exists in E. destruct E as [r [Hin Hm]].
  apply filter_In in Hin. destruct Hin as [_ Hn].
  rewrite Hm in Hn. discriminate.
Qed.

Lemma delete_rows_absent (a k : string) (t : table) :
  existsb (matches a k) t = false -> delete_rows a k t = t.
Proof.
  intros E. unfold delete_rows.
  induction t as [| r t IH]; [reflexivity |].
  simpl in *. apply orb_false_iff in E. destruct E as [Er Et].
  rewrite Er. simpl. now rewrite IH.
Qed.

(** A statement on [(a, k)] leaves the rows a condition selects as they
    were, when the condition selects no row under [(a, k)]. *)
Lemma upsert_filter_other (p : row -> bool) (now : timestamp)
  (a k v : string) (t : table) :
  (forall r, matches a k r = true -> p r = false) ->
  filter p (upsert now a k v t) = filter p t.
Proof.
  intros Hp.
  destruct (existsb (matches a k) t) eqn:E.
  - rewrite (Table.upsert_update now a k v t E). clear E.
    induction t as [| r t IH]; [reflexivity |].
    simpl. rewrite IH.
    destruct (matches a k r) eqn:Er.
    + rewrite (Hp r Er), Hp; [reflexivity |].
      rewrite Table.refresh_matches. exact Er.
    + unfold refresh. rewrite Er. reflexivity.
  - rewrite (Table.upsert_insert now a k v t E), filter_app. simpl.
    rewrite Hp by apply Table.matches_self. apply app_nil_r.
Qed.

Lemma delete_filter_other (p : row -> bool) (a k : string) (t : table) :
  (forall r, matches a k r = true -> p r = false) ->
  filter p (delete_rows a k t) = filter p t.
Proof.
  intros Hp. unfold delete_rows.
  induction t as [| r t IH]; [reflexivity |].
  simpl. destruct (matches a k r) eqn:Er; simpl.
  - now rewrite (Hp r Er).
  - now rewrite IH.
Qed.

Lemma matches_other (a k a' k' : string) (r : row) :
  (a', k') <> (a, k) -> matches a k r = true -> matches a' k' r = false.
Proof.
  intros Hne Hm.
  destruct (matches a' k' r) eqn:Hm'; [| reflexivity].
  apply Table.matches_keys in Hm, Hm'. congruence.
Qed.

Lemma owned_other (a k a' : string) (r : row) :
  a' <> a -> matches a k r = true -> owned_by a' r = false.
Proof.
  intros Hne Hm. apply Table.matches_spec in Hm. destruct Hm as [Ha _].
  unfold owned_by. apply String.eqb_neq. congruence.
Qed.

(** What any condition of that kind selects after a [set] or a [delete] on
    [(a, k)], committed or not. *)
Lemma stored_filter_other (p : row -> bool) (fails : storage_call -> bool)
  (now : timestamp) (prog a k v : string) (rest : list string) (t : table) :
  (forall r, matches a k r = true -> p r = false) ->
  filter p (stored (run fails now (prog :: "set" :: a :: k :: v :: rest) t))
  = filter p t
  /\ filter p (stored (run fails now (prog :: "delete" :: a :: k :: rest) t))
     = filter p t.
Proof.
  intros Hp. split.
  - destruct (stored_set fails now t prog a (k :: v :: rest))
      as [-> | [k' [v' [rest' [Erest ->]]]]]; [reflexivity |].
    injection Erest as <- <- _. now apply upsert_filter_other.
  - destruct (stored_delete fails now t prog a (k :: rest))
      as [-> | [k' [rest' [Erest ->]]]]; [reflexivity |].
    injection Erest as <- _. now apply delete_filter_other.
Qed.

(** X1. A [set] under a key the agent does not have yet adds one record
    and changes no other: the table it leaves is the table it found followed
    by the new record, which carries the key, the value and the schema's
    default [updated_at]; it prints the remembered payload and exits
    with 0. *)
Theorem set_inserts_fresh
  (now : timestamp) (prog agent k v : string) (rest : list string)
  (t : table) :
  existsb (matches agent k) t = false ->
  let r := run healthy now (prog :: "set" :: agent :: k :: v :: rest) t in
  stored r = (t ++ [mkRow agent k v (updated_at_default now)])%list
  /\ length (stored r) = S (length t)
  /\ output r = line (JDict [("status", JStr "remembered");
                             ("key", JStr k); ("value", JStr v)])
  /\ exit_code r = 0%Z.
Proof.
  intros E r. subst r.
  rewrite (run_set _ _ _ _ _ healthy_no_failure). cbn [stored output exit_code].
  rewrite (Table.upsert_insert now agent k v t E).
  repeat split. rewrite length_app. simpl. lia.
Qed.

(** X2. The unique constraint on [(agent_id, key)] is an invariant of the
    script: whatever the arguments and whatever storage calls fail, an
    invocation that starts from a table that meets it leaves a table that
    meets it. *)
Theorem unique_keys_invariant
  (fails : storage_call -> bool) (now : timestamp) (argv : list string)
  (t : table) :
  unique_keys t -> unique_keys (stored (run fails now argv t)).
Proof.
  intros Hu.
  destruct (stored_cases fails now t argv)
    as [-> | [[a [k [v ->]]] | [a [k ->]]]].
  - exact Hu.
  - now apply Table.upsert_unique.
  - now apply Table.delete_unique.
Qed.

(** X3. After a [delete] of [(agent_id, key)] no record is left under it,
    whatever the table held (duplicates included), and a [get] of the same
    pair on the table it left prints the not-found payload. *)
Theorem delete_then_get
  (now now' : timestamp) (prog prog' agent k : string)
  (rest rest' : list string) (t : table) :
  let t' :=
    stored (run healthy now (prog :: "delete" :: agent :: k :: rest) t) in
  existsb (matches agent k) t' = false
  /\ output (run healthy now' (prog' :: "get" :: agent :: k :: rest') t')
     = line (JDict [("error", JStr "not found"); ("key", JStr k)]).
Proof.
  intros t'. subst t'.
  rewrite (run_delete _ _ _ _ _ healthy_no_failure). cbn [stored].
  split; [apply existsb_delete_rows |].
  rewrite (run_get _ _ _ _ _ healthy_no_failure). cbn [output].
  now rewrite (Table.select_none _ _ (existsb_delete_rows agent k t)).
Qed.

(** X4. A [set] under a key the agent does not have, followed by a [delete]
    of that key, gives back the table as it was, records and order. *)
Theorem set_then_delete_restores
  (now now' : timestamp) (prog prog' agent k v : string)
  (rest rest' : list string) (t : table) :
  existsb (matches agent k) t = false ->
  stored (run healthy now' (prog' :: "delete" :: agent :: k :: rest')
            (stored (run healthy now
                       (prog :: "set" :: agent :: k :: v :: rest) t)))
  = t.
Proof.
  intros E.
  rewrite (run_set _ _ _ _ _ healthy_no_failure). cbn [stored].
  rewrite (run_delete _ _ _ _ _ healthy_no_failure). cbn [stored].
  rewrite (Table.upsert_insert now agent k v t E).
  unfold delete_rows. rewrite filter_app. simpl.
  rewrite Table.matches_self. simpl. rewrite app_nil_r.
  now apply delete_rows_absent.
Qed.

(** X5. [delete] is idempotent: a second [delete] of the same pair prints
    the same payload, exits with 0 again and leaves the table the first one
    left. *)
Theorem delete_twice
  (now now' : timestamp) (prog prog' agent k : string)
  (rest rest' : list string) (t : table) :
  let r1 := run healthy now (prog :: "delete" :: agent :: k :: rest) t in
  let r2 :=
    run healthy now' (prog' :: "delete" :: agent :: k :: rest') (stored r1) in
  stored r2 = stored r1 /\ output r2 = output r1 /\ exit_code r2 = 0%Z.
Proof.
  intros r1 r2. subst r1 r2.
  rewrite !(run_delete _ _ _ _ _ healthy_no_failure).
  cbn [stored output exit_code]. repeat split.
  apply delete_rows_absent, existsb_delete_rows.
Qed.

(** X6. Repeating a [set] with the same key and value changes nothing but
    [updated_at]: the second invocation leaves the same records with the
    same agents, keys and values, in the same order. *)
Theorem set_twice_same_content
  (now now' : timestamp) (prog prog' agent k v : string)
  (rest rest' : list string) (t : table) :
  let t1 :=
    stored (run healthy now (prog :: "set" :: agent :: k :: v :: rest) t) in
  let t2 :=
    stored (run healthy now' (prog' :: "set" :: agent :: k :: v :: rest') t1) in
  map content t2 = map content t1.
Proof.
  intros t1 t2. subst t1 t2.
  rewrite !(run_set _ _ _ _ _ healthy_no_failure). cbn [stored].
  destruct (Table.upsert_matching now agent k v t) as [Hne Hall].
  set (t1 := upsert now agent k v t) in *.
  assert (E : existsb (matches agent k) t1 = true).
  { destruct (existsb (matches agent k) t1) eqn:E; [reflexivity |].
    now rewrite (Table.existsb_false_filter _ _ E) in Hne. }
  rewrite (Table.upsert_update now' agent k v t1 E), map_map.
  apply map_ext_in. intros r Hin. unfold refresh.
  destruct (matches agent k r) eqn:Er; [| reflexivity].
  rewrite Forall_forall in Hall.
  unfold content. cbn [agent_id key value].
  rewrite (Hall r); [reflexivity |].
  apply filter_In. now split.
Qed.

(** X7. A [set] or a [delete] on [(agent_id, key)], committed or failed,
    does not change what [get] prints for any other pair, of the same agent
    or of another. *)
Theorem get_of_other_key_unaffected
  (fails : storage_call -> bool) (now now' : timestamp)
  (prog prog' agent k v agent' k' : string) (rest rest' : list string)
  (t : table) :
  (agent', k') <> (agent, k) ->
  let get := fun t0 =>
    output (run healthy now' (prog' :: "get" :: agent' :: k' :: rest') t0) in
  get (stored (run fails now (prog :: "set" :: agent :: k :: v :: rest) t))
  = get t
  /\ get (stored (run fails now (prog :: "delete" :: agent :: k :: rest) t))
     = get t.
Proof.
  intros Hne get. subst get. cbv beta.
  rewrite !(run_get _ _ _ _ _ healthy_no_failure). cbn [output].
  unfold select.
  destruct (stored_filter_other (matches agent' k') fails now prog agent k v
              rest t (fun r => matches_other agent k agent' k' r Hne))
    as [-> ->].
  split; reflexivity.
Qed.

(** X8. A [set] or a [delete] for one agent, committed or failed, does not
    change what [list] prints for any other agent. *)
Theorem list_of_other_agent_unaffected
  (fails : storage_call -> bool) (now now' : timestamp)
  (prog prog' agent k v agent' : string) (rest rest' : list string)
  (t : table) :
  agent' <> agent ->
  let list := fun t0 =>
    output (run healthy now' (prog' :: "list" :: agent' :: rest') t0) in
  list (stored (run fails now (prog :: "set" :: agent :: k :: v :: rest) t))
  = list t
  /\ list (stored (run fails now (prog :: "delete" :: agent :: k :: rest) t))
     = list t.
Proof.
  intros Hne list. subst list. cbv beta.
  rewrite !(run_list _ _ _ _ _ healthy_no_failure). cbn [output].
  unfold select.
  destruct (stored_filter_other (owned_by agent') fails now prog agent k v
              rest t (fun r => owned_other agent k agent' r Hne))
    as [-> ->].
  split; reflexivity.
Qed.

End Composition.

(** ** [list] after a [set] and after a [delete] *)

Section ListAfter.

Context `{Engine}.

Lemma filter_twice {A : Type} (p q : A -> bool) (l : list A) :
  filter p (filter q l) = filter (fun x => (p x && q x)%bool) l.
Proof.
  induction l as [| x l IH]; [reflexivity |].
  simpl. destruct (q x); simpl.
  - rewrite andb_true_r. now rewrite IH.
  - rewrite andb_false_r. exact IH.
Qed.

Lemma owned_after_delete (a k : string) (t : table) :
  filter (owned_by a) (delete_rows a k t)
  = filter (fun r => (owned_by a r && negb (key r =? k))%bool) t.
Proof.
  unfold delete_rows. rewrite filter_twice. apply filter_ext. intros r.
  unfold matches, owned_by.
  destruct (agent_id r =? a); destruct (key r =? k); reflexivity.
Qed.

(** X9. After a [set] of [(agent_id, key, value)], [list] for the agent
    prints a memory with that key and that value, whatever the table held
    before. *)
Theorem set_then_list
  (now now' : timestamp) (prog prog' agent k v : string)
  (rest rest' : list string) (t : table) :
  let t' :=
    stored (run healthy now (prog :: "set" :: agent :: k :: v :: rest) t) in
  exists memories,
    output (run healthy now' (prog' :: "list" :: agent :: rest') t')
    = line (JDict [("memories", JList memories)])
    /\ In (JDict [("key", JStr k); ("value", JStr v)]) memories.
Proof.
  intros t'. subst t'.
  rewrite (run_set _ _ _ _ _ healthy_no_failure). cbn [stored].
  rewrite (run_list _ _ _ _ _ healthy_no_failure). cbn [output].
  eexists. split; [reflexivity |].
  destruct (Table.upsert_matching now agent k v t) as [Hne Hall].
  destruct (filter (matches agent k) (upsert now agent k v t))
    as [| r rows] eqn:Ef; [contradiction |].
  assert (Hr : In r (filter (matches agent k) (upsert now agent k v t)))
    by (rewrite Ef; now left).
  apply filter_In in Hr. destruct Hr as [Hin Hm].
  inversion Hall as [| x l Hv _]; subst.
  apply in_map_iff. exists r. split.
  - apply Table.matches_spec in Hm. destruct Hm as [_ Hk].
    now rewrite Hk.
  - apply Table.select_in. split; [exact Hin |].
    now apply Table.matches_owned with (k := k).
Qed.

(** X10. After a [delete] of [(agent_id, key)], [list] for the agent prints
    the agent's remaining records, none of them under the deleted key. *)
Theorem delete_then_list
  (now now' : timestamp) (prog prog' agent k : string)
  (rest rest' : list string) (t : table) :
  let t' :=
    stored (run healthy now (prog :: "delete" :: agent :: k :: rest) t) in
  exists rows,
    output (run healthy now' (prog' :: "list" :: agent :: rest') t')
    = line (JDict [("memories", JList (map memory rows))])
    /\ Forall (fun r => key r <> k) rows
    /\ Permutation rows
         (filter (fun r => (owned_by agent r && negb (key r =? k))%bool) t).
Proof.
  intros t'. subst t'.
  rewrite (run_delete _ _ _ _ _ healthy_no_failure). cbn [stored].
  rewrite (run_list _ _ _ _ _ healthy_no_failure). cbn [output].
  exists (select (owned_by agent) (delete_rows agent k t)).
  split; [reflexivity |].
  assert (Hperm : Permutation
            (select (owned_by agent) (delete_rows agent k t))
            (filter (fun r => (owned_by agent r && negb (key r =? k))%bool) t)).
  { rewrite <- owned_after_delete. apply Table.select_perm. }
  split; [| exact Hperm].
  apply Forall_forall. intros r Hin.
  apply (Permutation_in r Hperm) in Hin.
  apply filter_In in Hin. destruct Hin as [_ Hc].
  apply andb_true_iff in Hc. destruct Hc as [_ Hk].
  apply negb_true_iff, String.eqb_neq in Hk. exact Hk.
Qed.

End ListAfter.

(** ** Storage failures *)

Section Failures.

Context `{Engine}.

(** X11. The exit status is 0 or 1, and it is 0 exactly when no storage
    operation of the invocation failed: a failure of a storage call is never
    turned into a normal exit, whatever was printed before it. *)
Theorem exit_code_reports_storage
  (fails : storage_call -> bool) (now : timestamp) (argv : list string)
  (t : table) :
  (exit_code (run fails now argv t) = 0%Z
   \/ exit_code (run fails now argv t) = 1%Z)
  /\ (exit_code (run fails now argv t) = 0%Z
      <-> calls_succeed fails (run fails now argv t)).
Proof.
  unfold calls_succeed.
  all_runs fails argv;
    (split;
     [ first [left; reflexivity | right; reflexivity]
     | split;
       [ first [ discriminate
               | intros _ c Hin; simpl in Hin;
                 intuition (subst; assumption) ]
       | first [ intros _; reflexivity | failed_call fails ] ] ]).
Qed.

(** X12. When opening the connection, executing the statement or
    committing fails, the invocation prints nothing, leaves the table as it
    was and exits with 1. *)
Theorem failure_prints_nothing
  (fails : storage_call -> bool) (now : timestamp) (argv : list string)
  (t : table) :
  (exists c, In c (storage_calls (run fails now argv t))
             /\ c <> Close /\ fails c = true) ->
  output (run fails now argv t) = ""
  /\ stored (run fails now argv t) = t
  /\ exit_code (run fails now argv t) = 1%Z.
Proof.
  all_runs fails argv;
    (intros [c [Hin [Hne Hfail]]]; simpl in Hin;
     first [ repeat split; reflexivity
           | exfalso; intuition (subst; congruence) ]).
Qed.

(** X13. The statuses [remembered] and [deleted] are printed after the
    commit: whatever fails, a [set] or a [delete] that printed anything has
    stored its change. *)
Theorem reported_is_committed
  (fails : storage_call -> bool) (now : timestamp) (prog agent k v : string)
  (rest : list string) (t : table) :
  (output (run fails now (prog :: "set" :: agent :: k :: v :: rest) t) <> ""
   -> stored (run fails now (prog :: "set" :: agent :: k :: v :: rest) t)
      = upsert now agent k v t)
  /\ (output (run fails now (prog :: "delete" :: agent :: k :: rest) t) <> ""
      -> stored (run fails now (prog :: "delete" :: agent :: k :: rest) t)
         = delete_rows agent k t).
Proof.
  split; run_script_faulty fails; intros Hne;
    first [reflexivity | exfalso; apply Hne; reflexivity].
Qed.

(** X14. A connection that was opened is closed, whatever happens in
    between: the calls to the storage library are the opening, then nothing,
    one statement or one statement and its commit, then the closing, which
    is the last call. *)
Theorem connection_is_closed
  (fails : storage_call -> bool) (now : timestamp) (argv : list string)
  (t : table) :
  3 <= length argv ->
  fails Connect = false ->
  exists mid,
    storage_calls (run fails now argv t) = (Connect :: mid ++ [Close])%list
    /\ (mid = [] \/ mid = [Execute] \/ mid = [Execute; Commit]).
Proof.
  all_runs fails argv;
    (intros Hlen Hc;
     first [ discriminate Hc
           | simpl in Hlen; lia
           | exists []; split; [reflexivity | tauto]
           | exists [Execute]; split; [reflexivity | tauto]
           | exists [Execute; Commit]; split; [reflexivity | tauto] ]).
Qed.

(** X15. The program name and the arguments after those an action reads are
    ignored, whatever fails: [set] reads a key and a value, [get] and
    [delete] a key, [list] nothing beyond the agent. *)
Theorem extra_arguments_ignored
  (fails : storage_call -> bool) (now : timestamp)
  (prog prog' agent k v : string) (rest : list string) (t : table) :
  run fails now (prog :: "set" :: agent :: k :: v :: rest) t
  = run fails now [prog'; "set"; agent; k; v] t
  /\ run fails now (prog :: "get" :: agent :: k :: rest) t
     = run fails now [prog'; "get"; agent; k] t
  /\ run fails now (prog :: "list" :: agent :: rest) t
     = run fails now [prog'; "list"; agent] t
  /\ run fails now (prog :: "delete" :: agent :: k :: rest) t
     = run fails now [prog'; "delete"; agent; k] t.
Proof.
  repeat split; run_script_faulty fails;
    try match goal with
        | |- context [hd_error ?x] => destruct (hd_error x)
        end;
    reflexivity.
Qed.

(** Whatever fails, what an invocation has printed is nothing or the line of
    one JSON object. *)
Lemma output_cases
  (fails : storage_call -> bool) (now : timestamp) (argv : list string)
  (t : table) :
  output (run fails now argv t) = ""
  \/ exists payload,
       is_dict payload = true /\ output (run fails now argv t) = line payload.
Proof.
  all_runs fails argv;
    first [ left; reflexivity
          | right; eexists; (split; [| reflexivity]); reflexivity ].
Qed.

(** X16. Whatever storage calls fail, standard output never holds more than
    one line, and never a part of one: it is empty or one JSON object,
    written without a line break, followed by a line break. *)
Theorem at_most_one_line
  (fails : storage_call -> bool) (now : timestamp) (argv : list string)
  (t : table) :
  (output (run fails now argv t) = ""
   \/ exists payload,
        is_dict payload = true
        /\ output (run fails now argv t) = dumps payload ++ chr newline
        /\ count_newlines (dumps payload) = 0)
  /\ count_newlines (output (run fails now argv t)) <= 1.
Proof.
  destruct (output_cases fails now argv t) as [-> | [payload [Hdict ->]]].
  - split; [now left | simpl; lia].
  - split.
    + right. exists payload. repeat split.
      * exact Hdict.
      * apply Json.dumps_one_line.
    + unfold line. rewrite Json.printed_one_line. lia.
Qed.

Lemma all_chars_app (p : ascii -> bool) (s1 s2 : string) :
  all_chars p (s1 ++ s2) = (all_chars p s1 && all_chars p s2)%bool.
Proof.
  induction s1 as [| c s1 IH]; simpl; [reflexivity |].
  now rewrite IH, andb_assoc.
Qed.

Lemma escape_char_ascii (c : ascii) : all_chars is_ascii (escape_char c) = true.
Proof.
  destruct c as [[] [] [] [] [] [] [] []]; reflexivity.
Qed.

Lemma encode_str_ascii (s : string) : all_chars is_ascii (encode_str s) = true.
Proof.
  unfold encode_str.
  change (all_chars is_ascii (chr dquote ++ escape s ++ chr dquote) = true).
  rewrite !all_chars_app. simpl. rewrite andb_true_r.
  induction s as [| c s IH]; simpl; [reflexivity |].
  now rewrite all_chars_app, escape_char_ascii, IH.
Qed.

Lemma concat_ascii (sep : string) (l : list string) :
  all_chars is_ascii sep = true ->
  Forall (fun s => all_chars is_ascii s = true) l ->
  all_chars is_ascii (String.concat sep l) = true.
Proof.
  intros Hsep Hl.
  induction Hl as [| s r Hs Hr IH]; [reflexivity |].
  destruct r as [| s' r']; simpl; [exact Hs |].
  rewrite !all_chars_app, Hs, Hsep. simpl in IH. now rewrite IH.
Qed.

Lemma dumps_list (items : list json) :
  dumps (JList items) = "[" ++ String.concat ", " (map dumps items) ++ "]".
Proof. reflexivity. Qed.

Lemma dumps_dict (fields : list (string * json)) :
  dumps (JDict fields)
  = "{" ++ String.concat ", "
             (map (fun kv => encode_str (fst kv) ++ ": " ++ dumps (snd kv))
                  fields)
        ++ "}".
Proof. reflexivity. Qed.

Lemma dumps_ascii (j : json) : all_chars is_ascii (dumps j) = true.
Proof.
  induction j as [s | items IH | fields IH] using Json.json_ind.
  - apply encode_str_ascii.
  - rewrite dumps_list, !all_chars_app, concat_ascii;
      [reflexivity | reflexivity |].
    apply Forall_map. exact IH.
  - rewrite dumps_dict, !all_chars_app, concat_ascii;
      [reflexivity | reflexivity |].
    apply Forall_map.
    apply (Forall_impl _
             (P := fun kv => all_chars is_ascii (dumps (snd kv)) = true));
      [| exact IH].
    intros [k v] Hv. cbn beta iota delta [fst snd] in *.
    now rewrite !all_chars_app, encode_str_ascii, Hv.
Qed.

(** X17. Standard output is ASCII whatever characters the arguments and the
    stored values hold: [json.dumps] escapes every character outside it. *)
Theorem output_is_ascii
  (fails : storage_call -> bool) (now : timestamp) (argv : list string)
  (t : table) :
  all_chars is_ascii (output (run fails now argv t)) = true.
Proof.
  destruct (output_cases fails now argv t) as [-> | [payload [_ ->]]].
  - reflexivity.
  - unfold line. now rewrite all_chars_app, dumps_ascii.
Qed.

End Failures.

(** ** The further properties at work *)

Lemma set_inserts_fresh_witness :
  let r := run healthy 9%N ["remember.py"; "set"; "a1"; "shape"; "round"]
               [blue; other] in
  stored r = [blue; other; mkRow "a1" "shape" "round" 9%N]
  /\ length (stored r) = 3
  /\ output r = line (JDict [("status", JStr "remembered");
                             ("key", JStr "shape"); ("value", JStr "round")])
  /\ exit_code r = 0%Z.
Proof.
  assert (Hfresh : existsb (matches "a1" "shape") [blue; other] = false)
    by reflexivity.
  exact (set_inserts_fresh 9%N "remember.py" "a1" "shape" "round" []
           [blue; other] Hfresh).
Defined.

Lemma unique_keys_invariant_witness :
  unique_keys
    (stored (run healthy 9%N ["remember.py"; "set"; "a1"; "color"; "red"]
                 [blue; other])).
Proof.
  apply (unique_keys_invariant healthy 9%N
           ["remember.py"; "set"; "a1"; "color"; "red"] [blue; other]).
  exact unique_keys_example.
Defined.

Lemma set_then_delete_restores_witness :
  stored (run healthy 10%N ["remember.py"; "delete"; "a1"; "shape"]
            (stored (run healthy 9%N
                       ["remember.py"; "set"; "a1"; "shape"; "round"]
                       [blue; other])))
  = [blue; other].
Proof.
  apply (set_then_delete_restores 9%N 10%N "remember.py" "remember.py" "a1"
           "shape" "round" [] [] [blue; other]).
  reflexivity.
Defined.

Lemma get_of_other_key_unaffected_witness :
  let get := fun t0 =>
    output (run healthy 10%N ["remember.py"; "get"; "a2"; "color"] t0) in
  get (stored (run healthy 9%N ["remember.py"; "set"; "a1"; "color"; "red"]
                   [blue; other]))
  = get [blue; other]
  /\ get (stored (run healthy 9%N ["remember.py"; "delete"; "a1"; "color"]
                      [blue; other]))
     = get [blue; other].
Proof.
  apply (get_of_other_key_unaffected healthy 9%N 10%N "remember.py"
           "remember.py" "a1" "color" "red" "a2" "color" [] [] [blue; other]).
  discriminate.
Defined.

Lemma list_of_other_agent_unaffected_witness :
  let list := fun t0 =>
    output (run healthy 10%N ["remember.py"; "list"; "a2"] t0) in
  list (stored (run healthy 9%N ["remember.py"; "set"; "a1"; "color"; "red"]
                    [blue; other]))
  = list [blue; other]
  /\ list (stored (run healthy 9%N ["remember.py"; "delete"; "a1"; "color"]
                       [blue; other]))
     = list [blue; other].
Proof.
  apply (list_of_other_agent_unaffected healthy 9%N 10%N "remember.py"
           "remember.py" "a1" "color" "red" "a2" [] [] [blue; other]).
  discriminate.
Defined.

Lemma exit_code_reports_storage_witness :
  exit_code (run healthy 9%N ["remember.py"; "get"; "a1"; "color"]
                 [blue; other]) = 0%Z.
Proof.
  apply (proj2 (exit_code_reports_storage healthy 9%N
                  ["remember.py"; "get"; "a1"; "color"] [blue; other])).
  intros c _. reflexivity.
Defined.

Lemma failure_prints_nothing_witness :
  let r := run unavailable 9%N ["remember.py"; "set"; "a1"; "color"; "red"]
               [blue; other] in
  output r = "" /\ stored r = [blue; other] /\ exit_code r = 1%Z.
Proof.
  apply (failure_prints_nothing unavailable 9%N
           ["remember.py"; "set"; "a1"; "color"; "red"] [blue; other]).
  exists Connect. split; [left; reflexivity | split; [discriminate |]].
  reflexivity.
Defined.

Lemma reported_is_committed_witness :
  stored (run healthy 9%N ["remember.py"; "set"; "a1"; "color"; "red"]
              [blue; other])
  = upsert 9%N "a1" "color" "red" [blue; other].
Proof.
  apply (proj1 (reported_is_committed healthy 9%N "remember.py" "a1" "color"
                  "red" [] [blue; other])).
  intros E. vm_compute in E. discriminate E.
Defined.

Lemma connection_is_closed_witness :
  exists mid,
    storage_calls (run healthy 9%N ["remember.py"; "get"; "a1"] [blue; other])
    = (Connect :: mid ++ [Close])%list
    /\ (mid = [] \/ mid = [Execute] \/ mid = [Execute; Commit]).
Proof.
  apply (connection_is_closed healthy 9%N ["remember.py"; "get"; "a1"]
           [blue; other]).
  - simpl. lia.
  - reflexivity.
Defined.
